(** * bevy_register_in_world: a shallow embedding of registration and
    runtime system injection.

    Sources: [src/src/lib.rs] (ledger and [RegisterExtension]),
    [src/src/component.rs] ([register_on_add]), [src/src/add_systems.rs]
    ([AddSystems], [add_requested_systems], [WorldAddSystems]),
    [src/src/app.rs] (the plugin) and [src/macros/src/lib.rs] (the derive). *)

From Stdlib Require Import List Bool Arith Lia.
From Stdlib Require Import Strings.String.
Import ListNotations.

(* ------------------------------------------------------------------ *)
(** ** Type identities *)

(** Concrete Rust types a program may register.  [TypeId::of::<T>()] is
    modelled by the type itself: two identities are equal iff the types
    are the same instantiation, generic arguments included. *)
Inductive rty : Type :=
| RI32
| RBool
| RNamed (name : nat)
| RGeneric2 (name : nat) (a b : rty).

Definition rty_eq_dec (x y : rty) : {x = y} + {x <> y}.
Proof. decide equality; apply Nat.eq_dec. Defined.

Definition rty_eqb (x y : rty) : bool := if rty_eq_dec x y then true else false.

Definition TypeId := rty.
Definition TypeId_of (t : rty) : TypeId := t.

(* ------------------------------------------------------------------ *)
(** ** [RegisteredTypes] (lib.rs, lines 106-128) *)

(** The [HashSet<TypeId>] of registered types. *)
Definition RegisteredTypes := list TypeId.

Definition RegisteredTypes_default : RegisteredTypes := [].

Definition hashset_contains (x : TypeId) (s : list TypeId) : bool :=
  existsb (rty_eqb x) s.

(** [HashSet::insert]: [true] iff the value was not present. *)
Definition hashset_insert (x : TypeId) (s : list TypeId) : bool * list TypeId :=
  if hashset_contains x s then (false, s) else (true, s ++ [x]).

(** [RegisteredTypes::is_registered] *)
Definition is_registered (t : rty) (r : RegisteredTypes) : bool :=
  hashset_contains (TypeId_of t) r.

(** [RegisteredTypes::register] *)
Definition register (t : rty) (r : RegisteredTypes) : bool * RegisteredTypes :=
  hashset_insert (TypeId_of t) r.

(* ------------------------------------------------------------------ *)
(** ** Schedules, events and the world *)

(** Schedule labels; [AddingSystems] is the crate's reserved label. *)
Inductive label : Type :=
| AddingSystems
| Label (n : nat).

Definition label_eq_dec (x y : label) : {x = y} + {x <> y}.
Proof. decide equality; apply Nat.eq_dec. Defined.

Definition label_eqb (x y : label) : bool := if label_eq_dec x y then true else false.

(** A system is named by a number; [SystemConfigs] is the list of systems
    it carries, in order. *)
Definition system := nat.
Definition SystemConfigs := list system.

(** [pub struct AddSystems(InternedScheduleLabel, SystemConfigs)] *)
Record AddSystemsEv : Type := AddSystemsMk {
  ev_schedule : label;
  ev_systems : SystemConfigs
}.

(** [Schedules]: label to the systems added to that schedule, in the
    order they were added. *)
Definition Schedules := list (label * SystemConfigs).

Fixpoint schedules_get (l : label) (s : Schedules) : option SystemConfigs :=
  match s with
  | [] => None
  | (l', c) :: r => if label_eqb l l' then Some c else schedules_get l r
  end.

(** [Schedules::add_systems]: [self.entry(label)] (inserting
    [Schedule::new(label)] when absent) [.add_systems(systems)]. *)
Fixpoint schedules_add_systems (l : label) (sys : SystemConfigs) (s : Schedules)
  : Schedules :=
  match s with
  | [] => [(l, sys)]
  | (l', c) :: r =>
      if label_eqb l l' then (l', c ++ sys) :: r
      else (l', c) :: schedules_add_systems l sys r
  end.

(** A command queued through [DeferredWorld::commands]; bevy applies it
    on a flush.  Commands are user code, opaque to this crate: [cmd_id]
    names one, [cmd_panics] tells whether applying it panics. *)
Record command : Type := Cmd {
  cmd_id : nat;
  cmd_panics : bool
}.

(** The parts of a bevy [World] this crate reads or writes.
    - [ledger]: the [RegisteredTypes] resource, if inserted;
    - [ledger_changed]: the change tick of that resource;
    - [change_tick]: the world's current change tick;
    - [events]: the [ConsumableEvents<AddSystems>] resource, if inserted;
    - [schedules]: the [Schedules] resource;
    - [command_queue] / [applied]: queued and already applied commands;
    - [callback_log]: the [RegisterInWorld::register] callbacks that have
      started, in order (an observation, not program state). *)
Record World : Type := MkWorld {
  ledger : option RegisteredTypes;
  ledger_changed : nat;
  change_tick : nat;
  events : option (list AddSystemsEv);
  schedules : Schedules;
  command_queue : list command;
  applied : list command;
  callback_log : list rty
}.

Definition set_ledger (r : RegisteredTypes) (w : World) : World :=
  MkWorld (Some r) (change_tick w) (change_tick w) (events w) (schedules w)
    (command_queue w) (applied w) (callback_log w).

Definition set_events (q : list AddSystemsEv) (w : World) : World :=
  MkWorld (ledger w) (ledger_changed w) (change_tick w) (Some q) (schedules w)
    (command_queue w) (applied w) (callback_log w).

Definition set_schedules (s : Schedules) (w : World) : World :=
  MkWorld (ledger w) (ledger_changed w) (change_tick w) (events w) s
    (command_queue w) (applied w) (callback_log w).

Definition queue_command (c : command) (w : World) : World :=
  MkWorld (ledger w) (ledger_changed w) (change_tick w) (events w) (schedules w)
    (command_queue w ++ [c]) (applied w) (callback_log w).


Definition log_callback (t : rty) (w : World) : World :=
  MkWorld (ledger w) (ledger_changed w) (change_tick w) (events w) (schedules w)
    (command_queue w) (applied w) (callback_log w ++ [t]).

(** Result of running code on a world: it returns, it panics (with the
    world as it was at the panic), or the model ran out of fuel. *)
Inductive res : Type :=
| Done (w : World)
| Panicked (w : World)
| OutOfFuel.

Definition res_bind (r : res) (k : World -> res) : res :=
  match r with
  | Done w => k w
  | e => e
  end.

(** Taking the command [c] off the front of the queue [r] and applying it. *)
Definition pop_command (c : command) (r : list command) (w : World) : World :=
  MkWorld (ledger w) (ledger_changed w) (change_tick w) (events w) (schedules w)
    r (applied w ++ [c]) (callback_log w).

(** Apply the queued commands [q] in order; a command that panics ends the
    flush with the panic, the commands before it applied. *)
Fixpoint apply_queued (q : list command) (w : World) : res :=
  match q with
  | [] => Done w
  | c :: r => if cmd_panics c then Panicked w else apply_queued r (pop_command c r w)
  end.

(** [World::flush_commands]: apply every queued command. *)
Definition flush_commands (w : World) : res := apply_queued (command_queue w) w.

(* ------------------------------------------------------------------ *)
(** ** [AddSystems] (add_systems.rs) *)

(** [AddSystems::new]: [None] is the panic of the [assert!]. *)
Definition AddSystems_new (schedule : label) (systems : SystemConfigs)
  : option AddSystemsEv :=
  if label_eqb schedule AddingSystems then None
  else Some (AddSystemsMk schedule systems).

(** [WorldAddSystems for DeferredWorld]:
    [self.resource_mut::<ConsumableEvents<AddSystems>>().send(AddSystems::new(..))].
    [resource_mut] panics when the resource is missing. *)
Definition deferred_add_systems (schedule : label) (systems : SystemConfigs)
    (w : World) : res :=
  match events w with
  | None => Panicked w
  | Some q =>
      match AddSystems_new schedule systems with
      | None => Panicked w
      | Some e => Done (set_events (q ++ [e]) w)
      end
  end.

(** [WorldAddSystems for World]: [Into::<DeferredWorld>::into(self).add_systems(..)]. *)
Definition world_add_systems (schedule : label) (systems : SystemConfigs)
    (w : World) : res :=
  deferred_add_systems schedule systems w.

(** Modelled from the spec: the event queue primitive of the
    [bevy_consumable_event] dependency.  [read_and_consume_all] yields every
    queued event in insertion order and leaves the queue empty. *)
Definition read_and_consume_all (q : list AddSystemsEv)
  : list AddSystemsEv * list AddSystemsEv := (q, []).

(** [add_requested_systems]: the loop over the consumed events. *)
Definition add_requested_systems (w : World) : res :=
  match events w with
  | None => Panicked w
  | Some q =>
      let '(evs, rest) := read_and_consume_all q in
      Done (set_schedules
              (fold_left (fun s e => schedules_add_systems (ev_schedule e) (ev_systems e) s)
                 evs (schedules w))
              (set_events rest w))
  end.

(* ------------------------------------------------------------------ *)
(** ** Registration (lib.rs, component.rs) *)

(** What a user callback ([RegisterInWorld::register], or an [on_add]
    hook) does with the [DeferredWorld] it receives through this crate's
    API: register another type, send an [AddSystems] event through
    [add_systems], or queue a command.  Direct writes to resources
    ([resource_mut] on [RegisteredTypes], [Schedules] or the events), and
    commands that change them, are outside this model. *)
Inductive action : Type :=
| ARegister (t : rty)
| AAddSystems (schedule : label) (systems : SystemConfigs)
| AQueue (c : command).

(** Run a callback body, stopping at the first panic. *)
Fixpoint run_actions (step : action -> World -> res) (acts : list action) (w : World)
  : res :=
  match acts with
  | [] => Done w
  | a :: r => res_bind (step a w) (run_actions step r)
  end.

(** The check-and-mark of [DeferredWorld::register]:
    [self.resource_mut::<RegisteredTypes>()] (a panic, [None], when the
    resource is missing), then [initialized.register::<T>()] through the
    [Mut], which marks the resource changed. *)
Definition deferred_mark (t : rty) (w : World) : option (bool * World) :=
  match ledger w with
  | None => None
  | Some r => let '(b, r') := register t r in Some (b, set_ledger r' w)
  end.

(** The check-and-mark of [World::register]:
    [self.get_resource_or_insert_with::<RegisteredTypes>(Default::default)]
    then [initialized.register::<T>()]. *)
Definition world_mark (t : rty) (w : World) : bool * World :=
  let r := match ledger w with
           | Some r => r
           | None => RegisteredTypes_default
           end in
  let '(b, r') := register t r in (b, set_ledger r' w).

Section Registration.

(** [T::register] of each type, as the actions it performs. *)
Variable callback : rty -> list action.

(** One action of a callback, with [reg] the [DeferredWorld::register]
    to use for nested registrations. *)
Definition exec_action (reg : rty -> World -> res) (a : action) (w : World) : res :=
  match a with
  | ARegister u => reg u w
  | AAddSystems l s => deferred_add_systems l s w
  | AQueue c => Done (queue_command c w)
  end.

(** [T::register(world)]: the callback starts (logged), then runs. *)
Definition run_callback (reg : rty -> World -> res) (t : rty) (w : World) : res :=
  run_actions (exec_action reg) (callback t) (log_callback t w).

(** [RegisterExtension for DeferredWorld]; [fuel] bounds the nesting of
    registrations inside callbacks. *)
Fixpoint deferred_register (fuel : nat) (t : rty) (w : World) : res :=
  match fuel with
  | 0 => OutOfFuel
  | S f =>
      match deferred_mark t w with
      | None => Panicked w
      | Some (true, w1) => run_callback (deferred_register f) t w1
      | Some (false, w1) => Done w1
      end
  end.

(** [RegisterExtension for World]: the callback, then [flush_commands]. *)
Definition world_register (fuel : nat) (t : rty) (w : World) : res :=
  match world_mark t w with
  | (true, w1) =>
      match fuel with
      | 0 => OutOfFuel
      | S f => res_bind (run_callback (deferred_register f) t w1)
                 flush_commands
      end
  | (false, w1) => Done w1
  end.

(** [RegisterExtension for App] and [for SubApp]: [self.world_mut().register::<T>()]. *)
Definition app_register (fuel : nat) (t : rty) (w : World) : res :=
  world_register fuel t w.

(** [register_on_add]: [world.register::<T>()] on the [DeferredWorld]. *)
Definition register_on_add (fuel : nat) (t : rty) (w : World) : res :=
  deferred_register fuel t w.

(** A top-level registration request, by path. *)
Inductive call : Type :=
| CWorld (t : rty)
| CDeferred (t : rty)
| COnAdd (t : rty).

Definition call_type (c : call) : rty :=
  match c with CWorld t | CDeferred t | COnAdd t => t end.

Definition run_call (fuel : nat) (c : call) (w : World) : res :=
  match c with
  | CWorld t => world_register fuel t w
  | CDeferred t => deferred_register fuel t w
  | COnAdd t => register_on_add fuel t w
  end.

Fixpoint run_calls (fuel : nat) (cs : list call) (w : World) : res :=
  match cs with
  | [] => Done w
  | c :: r => res_bind (run_call fuel c w) (run_calls fuel r)
  end.

End Registration.

(** A world with none of the crate's resources. *)
Definition empty_world : World := MkWorld None 0 0 None [] [] [] [].

(** [RegisterInWorldPlugin::build]: [init_resource::<RegisteredTypes>()],
    the persistent [AddSystems] events and the [AddingSystems] schedule
    running [add_requested_systems] (the system itself is not listed in
    [schedules], which holds the systems added through [AddSystems]). *)
Definition plugin_build (w : World) : World :=
  let w1 := match ledger w with
            | Some _ => w
            | None => set_ledger RegisteredTypes_default w
            end in
  match events w1 with
  | Some _ => w1
  | None => set_events [] w1
  end.

(* ------------------------------------------------------------------ *)
(** ** The [ComponentAutoRegister] derive (macros/src/lib.rs) *)

(** A statement of the generated [on_add] closure body:
    [register_on_add::<Self>(world.reborrow());] or the user's
    [(#meta)(world, entity, id);], the user path named by a number. *)
Inductive hook_stmt : Type :=
| RegisterOnAddSelf
| CallUserHook (path : nat).

(** [hook_register_on_add_call]: the body of [hooks.on_add(|mut world, entity, id| { .. })]. *)
Definition hook_register_on_add_call (function : option nat) : list hook_stmt :=
  RegisterOnAddSelf ::
    match function with
    | Some meta => [CallUserHook meta]
    | None => []
    end.

(** The generated hook's effects: the [on_add] attribute of type [t] and the
    actions of each user hook path. *)
Section Hook.
Variable callback : rty -> list action.
Variable user_hook : nat -> list action.

Definition exec_hook_stmt (fuel : nat) (t : rty) (s : hook_stmt) (w : World) : res :=
  match s with
  | RegisterOnAddSelf => register_on_add callback fuel t w
  | CallUserHook p =>
      run_actions (exec_action (deferred_register callback fuel)) (user_hook p) w
  end.

Fixpoint exec_hook_body (fuel : nat) (t : rty) (body : list hook_stmt) (w : World)
  : res :=
  match body with
  | [] => Done w
  | s :: r => res_bind (exec_hook_stmt fuel t s w) (exec_hook_body fuel t r)
  end.

(** One firing of the [on_add] hook of type [t] whose attribute is [on_add]. *)
Definition on_add_hook (fuel : nat) (t : rty) (on_add : option nat) (w : World) : res :=
  exec_hook_body fuel t (hook_register_on_add_call on_add) w.
End Hook.

(* ------------------------------------------------------------------ *)
(** ** Attribute parsing and output of the derive (macros/src/lib.rs) *)

Module Macros.

(** A single identifier; [Path::is_ident(s)] holds iff the path is exactly
    that identifier (a path of several segments never equals one). *)
Definition ident := String.string.

Definition COMPONENT : ident := "component"%string.
Definition STORAGE : ident := "storage"%string.
Definition ON_ADD : ident := "on_add"%string.
Definition ON_INSERT : ident := "on_insert"%string.
Definition ON_REPLACE : ident := "on_replace"%string.
Definition ON_REMOVE : ident := "on_remove"%string.
Definition TABLE : String.string := "Table"%string.
Definition SPARSE_SET : String.string := "SparseSet"%string.

Inductive StorageTy : Type := Table | SparseSet.

(** What follows a nested key: [= "lit"], [= some::path] (a path named by
    a number), [= <another expression>], or no [=] at all. *)
Inductive meta_value : Type :=
| VLitStr (s : String.string)
| VPath (p : nat)
| VOtherExpr
| VNoValue.

Record nested_meta : Type := NestedMeta {
  nested_path : ident;
  nested_value : meta_value
}.

(** An attribute [#[path(nested, ..)]]; [attr_args] is [None] when the
    attribute has no parenthesised list. *)
Record attribute : Type := Attribute {
  attr_path : ident;
  attr_args : option (list nested_meta)
}.

(** The errors [syn] and [parse_component_attr] report. *)
Inductive parse_error : Type :=
| InvalidStorage (s : String.string)  (* "Invalid storage type `{s}`, .." *)
| UnsupportedAttribute                (* "Unsupported attribute" *)
| ExpectedEq                          (* [nested.value()] without [=] *)
| ExpectedLitStr                      (* [parse::<LitStr>()] *)
| ExpectedPath                        (* [parse::<ExprPath>()] *)
| ExpectedParens.                     (* [parse_nested_meta] on [#[component]] *)

Inductive presult (A : Type) : Type :=
| POk (a : A)
| PErr (e : parse_error).
Arguments POk {A} a.
Arguments PErr {A} e.

Record Attrs : Type := MkAttrs {
  storage : StorageTy;
  on_add : option nat;
  on_insert : option nat;
  on_replace : option nat;
  on_remove : option nat
}.

Definition default_attrs : Attrs := MkAttrs Table None None None None.

(** [nested.value()?.parse::<LitStr>()?.value()] *)
Definition value_lit_str (v : meta_value) : presult String.string :=
  match v with
  | VLitStr s => POk s
  | VNoValue => PErr ExpectedEq
  | _ => PErr ExpectedLitStr
  end.

(** [nested.value()?.parse::<ExprPath>()?] *)
Definition value_path (v : meta_value) : presult nat :=
  match v with
  | VPath p => POk p
  | VNoValue => PErr ExpectedEq
  | _ => PErr ExpectedPath
  end.

Definition set_path (f : Attrs -> nat -> Attrs) (a : Attrs) (v : meta_value)
  : presult Attrs :=
  match value_path v with
  | POk p => POk (f a p)
  | PErr e => PErr e
  end.

(** The closure given to [parse_nested_meta]. *)
Definition parse_nested (a : Attrs) (n : nested_meta) : presult Attrs :=
  if String.eqb (nested_path n) STORAGE then
    match value_lit_str (nested_value n) with
    | PErr e => PErr e
    | POk s =>
        if String.eqb s TABLE then
          POk (MkAttrs Table (on_add a) (on_insert a) (on_replace a) (on_remove a))
        else if String.eqb s SPARSE_SET then
          POk (MkAttrs SparseSet (on_add a) (on_insert a) (on_replace a) (on_remove a))
        else PErr (InvalidStorage s)
    end
  else if String.eqb (nested_path n) ON_ADD then
    set_path (fun a p => MkAttrs (storage a) (Some p) (on_insert a) (on_replace a)
                           (on_remove a)) a (nested_value n)
  else if String.eqb (nested_path n) ON_INSERT then
    set_path (fun a p => MkAttrs (storage a) (on_add a) (Some p) (on_replace a)
                           (on_remove a)) a (nested_value n)
  else if String.eqb (nested_path n) ON_REPLACE then
    set_path (fun a p => MkAttrs (storage a) (on_add a) (on_insert a) (Some p)
                           (on_remove a)) a (nested_value n)
  else if String.eqb (nested_path n) ON_REMOVE then
    set_path (fun a p => MkAttrs (storage a) (on_add a) (on_insert a) (on_replace a)
                           (Some p)) a (nested_value n)
  else PErr UnsupportedAttribute.

(** [meta.parse_nested_meta(..)]: the nested items left to right, stopping
    at the first error. *)
Fixpoint parse_nested_all (a : Attrs) (ns : list nested_meta) : presult Attrs :=
  match ns with
  | [] => POk a
  | n :: r =>
      match parse_nested a n with
      | POk a' => parse_nested_all a' r
      | PErr e => PErr e
      end
  end.

Definition parse_nested_meta (a : Attrs) (m : attribute) : presult Attrs :=
  match attr_args m with
  | None => PErr ExpectedParens
  | Some ns => parse_nested_all a ns
  end.

Definition is_component (m : attribute) : bool := String.eqb (attr_path m) COMPONENT.

(** The [for] loop of [parse_component_attr] over the filtered attributes. *)
Fixpoint parse_attrs (a : Attrs) (ms : list attribute) : presult Attrs :=
  match ms with
  | [] => POk a
  | m :: r =>
      match parse_nested_meta a m with
      | POk a' => parse_attrs a' r
      | PErr e => PErr e
      end
  end.

(** [parse_component_attr] *)
Definition parse_component_attr (ast_attrs : list attribute) : presult Attrs :=
  parse_attrs default_attrs (filter is_component ast_attrs).

(** [storage_path]: the variant named in [StorageType::#storage_type]. *)
Definition storage_path (ty : StorageTy) : ident :=
  match ty with
  | Table => "Table"%string
  | SparseSet => "SparseSet"%string
  end.

(** A [hooks.<hook>(..)] call in the generated [register_component_hooks]. *)
Inductive hook_registration : Type :=
| RegOnAdd (body : list hook_stmt)   (* [hooks.on_add(|mut world, entity, id| { .. })] *)
| RegHook (hook : ident) (path : nat).  (* [hooks. #hook (#meta);] *)

(** [hook_register_function_call] *)
Definition hook_register_function_call (hook : ident) (function : option nat)
  : option hook_registration :=
  option_map (fun meta => RegHook hook meta) function.

(** An [Option<TokenStream>] interpolated by [quote!]: nothing for [None]. *)
Definition opt_tokens {A : Type} (o : option A) : list A :=
  match o with Some x => [x] | None => [] end.

(** What [derive_component] emits: the compile error, or the [Component]
    impl (its [STORAGE_TYPE] variant and the hook registrations of
    [register_component_hooks]) with the [ComponentAutoRegister] impl. *)
Inductive derive_output : Type :=
| CompileError (e : parse_error)
| ComponentImpls (storage_type : ident) (hooks : list hook_registration).

(** [derive_component] *)
Definition derive_component (ast_attrs : list attribute) : derive_output :=
  match parse_component_attr ast_attrs with
  | PErr e => CompileError e
  | POk attrs =>
      let on_add := RegOnAdd (hook_register_on_add_call (on_add attrs)) in
      let on_insert := hook_register_function_call ON_INSERT (on_insert attrs) in
      let on_replace := hook_register_function_call ON_REPLACE (on_replace attrs) in
      let on_remove := hook_register_function_call ON_REMOVE (on_remove attrs) in
      ComponentImpls (storage_path (storage attrs))
        (on_add :: opt_tokens on_insert ++ opt_tokens on_replace ++ opt_tokens on_remove)
  end.

End Macros.

(* ------------------------------------------------------------------ *)
(** ** [MainScheduleOrder::insert_after] (bevy_app), called by the plugin *)

(** [labels.iter().position(|current| current == after)] *)
Fixpoint position (after : label) (labels : list label) : option nat :=
  match labels with
  | [] => None
  | l :: r =>
      if label_eqb l after then Some 0
      else option_map S (position after r)
  end.

(** [insert_after]: [None] is the panic [Expected {after:?} to exist];
    otherwise [labels.insert(index + 1, schedule)]. *)
Definition insert_after (after schedule : label) (labels : list label)
  : option (list label) :=
  match position after labels with
  | None => None
  | Some index => Some (firstn (S index) labels ++ schedule :: skipn (S index) labels)
  end.

(* ------------------------------------------------------------------ *)
(** ** Sequences of ledger operations and drains *)

Fixpoint register_seq (ts : list rty) (r : RegisteredTypes)
  : list bool * RegisteredTypes :=
  match ts with
  | [] => ([], r)
  | t :: ts' =>
      let '(b, r1) := register t r in
      let '(bs, r2) := register_seq ts' r1 in
      (b :: bs, r2)
  end.

(** The systems of the events of [q] that target [l], in queue order. *)
Definition configs_for (l : label) (q : list AddSystemsEv) : SystemConfigs :=
  flat_map (fun e => if label_eqb l (ev_schedule e) then ev_systems e else []) q.

Definition targets (l : label) (q : list AddSystemsEv) : bool :=
  existsb (fun e => label_eqb l (ev_schedule e)) q.

(** Producers sending [AddSystems] events from the [DeferredWorld] of some
    system of an ordinary schedule. *)
Fixpoint send_all (reqs : list (label * SystemConfigs)) (w : World) : res :=
  match reqs with
  | [] => Done w
  | (l, s) :: r => res_bind (deferred_add_systems l s w) (send_all r)
  end.

(* ------------------------------------------------------------------ *)
(** ** Basic lemmas *)

Lemma rty_eqb_true (x y : rty) : rty_eqb x y = true <-> x = y.
Proof. unfold rty_eqb; destruct (rty_eq_dec x y); split; congruence. Qed.

Lemma rty_eqb_refl (x : rty) : rty_eqb x x = true.
Proof. apply rty_eqb_true; reflexivity. Qed.

Lemma rty_eqb_neq (x y : rty) : x <> y -> rty_eqb x y = false.
Proof. unfold rty_eqb; destruct (rty_eq_dec x y); congruence. Qed.

Lemma label_eqb_true (x y : label) : label_eqb x y = true <-> x = y.
Proof. unfold label_eqb; destruct (label_eq_dec x y); split; congruence. Qed.

Lemma label_eqb_neq (x y : label) : x <> y -> label_eqb x y = false.
Proof. unfold label_eqb; destruct (label_eq_dec x y); congruence. Qed.

Lemma is_registered_In (t : rty) (r : RegisteredTypes) :
  is_registered t r = true <-> In t r.
Proof.
  unfold is_registered, hashset_contains, TypeId_of.
  rewrite existsb_exists; split.
  - intros [x [Hx He]]; apply rty_eqb_true in He; subst; exact Hx.
  - intros H; exists t; split; [exact H | apply rty_eqb_refl].
Qed.

Lemma register_result (t : rty) (r : RegisteredTypes) :
  register t r = if is_registered t r then (false, r) else (true, r ++ [t]).
Proof. reflexivity. Qed.

Lemma is_registered_app (u : rty) (r1 r2 : RegisteredTypes) :
  is_registered u (r1 ++ r2) = is_registered u r1 || is_registered u r2.
Proof. unfold is_registered, hashset_contains; apply existsb_app. Qed.

Lemma is_registered_after (t u : rty) (r : RegisteredTypes) :
  is_registered u (snd (register t r)) = is_registered u r || rty_eqb u t.
Proof.
  rewrite register_result.
  destruct (is_registered t r) eqn:Ht; simpl.
    destruct (rty_eqb u t) eqn:Hu; [|rewrite orb_false_r; reflexivity].
    apply rty_eqb_true in Hu; subst; rewrite Ht; reflexivity.
  - rewrite is_registered_app; unfold is_registered at 2, hashset_contains; simpl.
    rewrite orb_false_r; reflexivity.
Qed.

Lemma schedules_get_add (l l' : label) (sys : SystemConfigs) (s : Schedules) :
  schedules_get l (schedules_add_systems l' sys s) =
  if label_eqb l l' then
    Some (match schedules_get l s with Some c => c | None => [] end ++ sys)
  else schedules_get l s.
Proof.
  induction s as [|[l0 c] r IH]; simpl.
  - destruct (label_eqb l l'); reflexivity.
  - destruct (label_eqb l' l0) eqn:H1.
    + apply label_eqb_true in H1; subst l0; simpl.
      destruct (label_eqb l l'); reflexivity.
    + simpl. destruct (label_eqb l l0) eqn:H2.
      * apply label_eqb_true in H2; subst l0.
        destruct (label_eqb l l') eqn:H3; [|reflexivity].
        apply label_eqb_true in H3; subst; unfold label_eqb in H1.
        destruct (label_eq_dec l' l'); congruence.
      * exact IH.
Qed.

Lemma configs_for_no_target (l : label) (q : list AddSystemsEv) :
  targets l q = false -> configs_for l q = [].
Proof.
  unfold targets, configs_for; induction q as [|e q IH]; simpl; [reflexivity|].
  destruct (label_eqb l (ev_schedule e)); simpl; [discriminate|exact IH].
Qed.

Lemma fold_schedules_get (l : label) (q : list AddSystemsEv) (s : Schedules) :
  schedules_get l
    (fold_left (fun s e => schedules_add_systems (ev_schedule e) (ev_systems e) s) q s) =
  if targets l q then
    Some (match schedules_get l s with Some c => c | None => [] end ++ configs_for l q)
  else schedules_get l s.
Proof.
  revert s; induction q as [|e q IH]; intros s; simpl.
  - reflexivity.
  - rewrite IH, schedules_get_add; unfold targets, configs_for; simpl.
    destruct (label_eqb l (ev_schedule e)); simpl.
    + destruct (existsb _ q) eqn:Hq; [rewrite app_assoc; reflexivity|].
      pose proof (configs_for_no_target l q Hq) as H0; unfold configs_for in H0.
      rewrite H0, app_nil_r; reflexivity.
    + destruct (existsb _ q); reflexivity.
Qed.

(* ------------------------------------------------------------------ *)
(** ** The ledger/callback invariant *)

(** The ledger's contents, an absent resource reading as the default. *)
Definition ledger_view (w : World) : RegisteredTypes :=
  match ledger w with
  | Some r => r
  | None => RegisteredTypes_default
  end.

(** A type is in the ledger iff its callback has started, and no
    callback has started twice. *)
Definition Inv (w : World) : Prop :=
  NoDup (callback_log w) /\ forall t, In t (ledger_view w) <-> In t (callback_log w).

(** [w'] is reached from [w] keeping the invariant and only extending the
    callback log. *)
Definition Pres (w w' : World) : Prop :=
  Inv w' /\ exists post, callback_log w' = callback_log w ++ post.

Lemma Pres_refl (w w' : World) :
  Inv w' -> callback_log w' = callback_log w -> Pres w w'.
Proof. intros HI HL; split; [exact HI|exists []; rewrite app_nil_r; exact HL]. Qed.

Lemma Pres_trans (w1 w2 w3 : World) : Pres w1 w2 -> Pres w2 w3 -> Pres w1 w3.
Proof.
  intros [_ [p1 H1]] [HI [p2 H2]]; split; [exact HI|].
  exists (p1 ++ p2); rewrite H2, H1, app_assoc; reflexivity.
Qed.

Lemma Inv_same (w w' : World) :
  Inv w -> ledger_view w' = ledger_view w -> callback_log w' = callback_log w -> Inv w'.
Proof. intros [HN HI] HV HL; split; [rewrite HL; exact HN|]; rewrite HV, HL; exact HI. Qed.

Lemma deferred_add_systems_pres (l : label) (s : SystemConfigs) (w w' : World) :
  Inv w -> deferred_add_systems l s w = Done w' -> Pres w w'.
Proof.
  unfold deferred_add_systems, AddSystems_new; intros HI H.
  destruct (events w); [|discriminate].
  destruct (label_eqb l AddingSystems); inversion H; subst.
  apply Pres_refl; [apply (Inv_same w)|]; auto.
Qed.

Lemma run_actions_pres (step : action -> World -> res) :
  (forall a w w', Inv w -> step a w = Done w' -> Pres w w') ->
  forall acts w w', Inv w -> run_actions step acts w = Done w' -> Pres w w'.
Proof.
  intros Hstep acts; induction acts as [|a r IH]; intros w w' HI H; simpl in H.
  - inversion H; subst; apply Pres_refl; auto.
  - destruct (step a w) as [w1| |] eqn:E; try discriminate; simpl in H.
    pose proof (Hstep a w w1 HI E) as P1.
    apply (Pres_trans w w1 w'); [exact P1|]. apply IH; [apply P1|exact H].
Qed.

(** The callback of a type not yet in the ledger: the ledger gains it, the
    log gains it, and the invariant holds on entry to the callback. *)
Lemma mark_fresh (t : rty) (w w1 : World) :
  Inv w -> is_registered t (ledger_view w) = false ->
  ledger_view w1 = ledger_view w ++ [t] -> callback_log w1 = callback_log w ->
  Inv (log_callback t w1) /\ callback_log (log_callback t w1) = callback_log w ++ [t].
Proof.
  intros [HN HI] Hr HV HL; unfold Inv, log_callback; simpl; rewrite HL.
  split; [split|reflexivity].
  - apply NoDup_app; [exact HN|constructor; [intros []|constructor]|].
    intros x Hx [<-|[]]. apply HI in Hx. apply is_registered_In in Hx; congruence.
  - intros u; unfold ledger_view; simpl; fold (ledger_view w1); rewrite HV.
    rewrite !in_app_iff, HI; tauto.
Qed.

Lemma deferred_mark_spec (t : rty) (w : World) (b : bool) (w1 : World) :
  deferred_mark t w = Some (b, w1) ->
  b = negb (is_registered t (ledger_view w)) /\
  ledger_view w1 = snd (register t (ledger_view w)) /\
  callback_log w1 = callback_log w.
Proof.
  unfold deferred_mark, ledger_view; destruct (ledger w) as [r|]; [|discriminate].
  rewrite register_result; destruct (is_registered t r); intros H; inversion H; subst;
    auto.
Qed.

Lemma world_mark_spec (t : rty) (w : World) (b : bool) (w1 : World) :
  world_mark t w = (b, w1) ->
  b = negb (is_registered t (ledger_view w)) /\
  ledger_view w1 = snd (register t (ledger_view w)) /\
  callback_log w1 = callback_log w.
Proof.
  unfold world_mark, ledger_view; rewrite register_result.
  destruct (is_registered t _); intros H; inversion H; subst; auto.
Qed.

(** After a mark, the callback runs iff the type was new. *)
Lemma after_mark (t : rty) (w w1 : World) (b : bool) :
  Inv w ->
  b = negb (is_registered t (ledger_view w)) ->
  ledger_view w1 = snd (register t (ledger_view w)) ->
  callback_log w1 = callback_log w ->
  if b then Inv (log_callback t w1) /\
            callback_log (log_callback t w1) = callback_log w ++ [t]
  else Inv w1 /\ callback_log w1 = callback_log w /\ In t (callback_log w1).
Proof.
  intros HI Hb HV HL; rewrite register_result in HV.
  destruct (is_registered t (ledger_view w)) eqn:Hr; simpl in *; subst b.
  - split; [apply (Inv_same w); auto|split; [exact HL|]].
    rewrite HL; apply (proj2 HI); apply is_registered_In; exact Hr.
  - apply mark_fresh; auto.
Qed.

(** A flush that returns has applied the whole queue, in order, and
    emptied it; nothing else changes. *)
Lemma flush_commands_done (w w' : World) :
  flush_commands w = Done w' ->
  w' = MkWorld (ledger w) (ledger_changed w) (change_tick w) (events w) (schedules w)
         [] (applied w ++ command_queue w) (callback_log w).
Proof.
  unfold flush_commands.
  assert (G : forall q x, command_queue x = q -> apply_queued q x = Done w' ->
     w' = MkWorld (ledger x) (ledger_changed x) (change_tick x) (events x) (schedules x)
            [] (applied x ++ q) (callback_log x)).
  { induction q as [|c r IH]; intros x Hq H; simpl in H.
    - inversion H; subst; destruct w'; simpl in *; subst; rewrite app_nil_r; reflexivity.
    - destruct (cmd_panics c); [discriminate|].
      rewrite (IH (pop_command c r x) eq_refl H); unfold pop_command; simpl.
      rewrite <- app_assoc; reflexivity. }
  intros H; exact (G _ w eq_refl H).
Qed.

(** Applying a list of commands panics iff one of them panics; otherwise
    it returns. *)
Lemma apply_queued_panics (q : list command) (x : World) :
  ((exists x', apply_queued q x = Panicked x') <->
   exists c, In c q /\ cmd_panics c = true) /\
  apply_queued q x <> OutOfFuel.
Proof.
  revert x; induction q as [|c r IH]; intros x; simpl.
  - split; [split; [intros [x' H]; discriminate|intros [c [[] _]]]|discriminate].
  - destruct (cmd_panics c) eqn:Ec.
    + split; [split; [intros _; exists c; auto|intros _; eexists; reflexivity]|discriminate].
    + destruct (IH (pop_command c r x)) as [IH1 IH2]; split; [|exact IH2].
      rewrite IH1; split; intros [d [Hd Hp]].
      * exists d; auto.
      * destruct Hd as [<-|Hd]; [congruence|exists d; auto].
Qed.

Lemma flush_commands_panics (w : World) :
  (exists w', flush_commands w = Panicked w') <->
  exists c, In c (command_queue w) /\ cmd_panics c = true.
Proof. apply apply_queued_panics. Qed.

Lemma flush_commands_pres (w w' : World) :
  Inv w -> flush_commands w = Done w' -> Pres w w'.
Proof.
  intros HI H; apply flush_commands_done in H; subst w'.
  apply Pres_refl; [apply (Inv_same w)|]; auto.
Qed.

Section Callbacks.
Variable callback : rty -> list action.

(** A callback body keeps the invariant when nested registrations do. *)
Lemma run_callback_pres (reg : rty -> World -> res) (t : rty) (x x' : World) :
  (forall u y y', Inv y -> reg u y = Done y' -> Pres y y') ->
  Inv (log_callback t x) -> run_callback callback reg t x = Done x' ->
  Pres (log_callback t x) x'.
Proof.
  intros Hreg HI H; refine (run_actions_pres _ _ (callback t) _ _ HI H).
  intros [u|l s|c] y y' Hy Hs; simpl in Hs.
  - apply (Hreg u y y' Hy Hs).
  - apply (deferred_add_systems_pres l s y y' Hy Hs).
  - inversion Hs; subst; apply Pres_refl; [apply (Inv_same y)|]; auto.
Qed.

(** The callback of a fresh type, from the mark on: the log gains the
    type, then whatever nested callbacks log. *)
Lemma fresh_callback (reg : rty -> World -> res) (t : rty) (w w1 x : World) :
  (forall u y y', Inv y -> reg u y = Done y' -> Pres y y') ->
  Inv (log_callback t w1) ->
  callback_log (log_callback t w1) = callback_log w ++ [t] ->
  run_callback callback reg t w1 = Done x ->
  Inv x /\ exists post, callback_log x = callback_log w ++ t :: post.
Proof.
  intros Hreg HI HL H.
  destruct (run_callback_pres reg t w1 x Hreg HI H) as [HI' [post Hp]].
  split; [exact HI'|exists post]; rewrite Hp, HL, <- app_assoc; reflexivity.
Qed.

Lemma deferred_register_pres (fuel : nat) :
  forall t w w', Inv w -> deferred_register callback fuel t w = Done w' ->
  Pres w w' /\ In t (callback_log w').
Proof.
  induction fuel as [|f IH]; intros t w w' HI H; simpl in H; [discriminate|].
  destruct (deferred_mark t w) as [[b w1]|] eqn:E; [|discriminate].
  destruct (deferred_mark_spec t w b w1 E) as [Hb [HV HL]].
  pose proof (after_mark t w w1 b HI Hb HV HL) as A.
  destruct b.
  - destruct A as [HI1 HL1].
    assert (Hreg : forall u y y', Inv y -> deferred_register callback f u y = Done y' ->
                                  Pres y y') by (intros; eapply IH; eauto).
    destruct (fresh_callback _ t w w1 w' Hreg HI1 HL1 H) as [HI' [post Hp]].
    split; [split; [exact HI'|exists (t :: post); exact Hp]|].
    rewrite Hp; apply in_app_iff; right; left; reflexivity.
  - inversion H; subst; destruct A as [HI1 [HL1 Hin]].
    split; [apply Pres_refl; auto|exact Hin].
Qed.

Lemma deferred_register_reg (f : nat) :
  forall u y y', Inv y -> deferred_register callback f u y = Done y' -> Pres y y'.
Proof. intros; eapply deferred_register_pres; eauto. Qed.

Lemma world_register_pres (fuel : nat) (t : rty) (w w' : World) :
  Inv w -> world_register callback fuel t w = Done w' ->
  Pres w w' /\ In t (callback_log w').
Proof.
  intros HI H; unfold world_register in H.
  destruct (world_mark t w) as [b w1] eqn:E.
  destruct (world_mark_spec t w b w1 E) as [Hb [HV HL]].
  pose proof (after_mark t w w1 b HI Hb HV HL) as A.
  destruct b.
  - destruct A as [HI1 HL1]; destruct fuel as [|f]; [discriminate|].
    destruct (run_callback callback (deferred_register callback f) t w1) as [x| |] eqn:R;
      try discriminate; simpl in H; apply flush_commands_done in H; subst w'.
    destruct (fresh_callback _ t w w1 x (deferred_register_reg f) HI1 HL1 R)
      as [HI' [post Hp]].
    split; [split; [apply (Inv_same x); auto|exists (t :: post); exact Hp]|].
    simpl; rewrite Hp; apply in_app_iff; right; left; reflexivity.
  - inversion H; subst; destruct A as [HI1 [HL1 Hin]].
    split; [apply Pres_refl; auto|exact Hin].
Qed.

Lemma run_call_pres (fuel : nat) (c : call) (w w' : World) :
  Inv w -> run_call callback fuel c w = Done w' ->
  Pres w w' /\ In (call_type c) (callback_log w').
Proof.
  destruct c as [t|t|t]; simpl.
  - apply world_register_pres.
  - apply deferred_register_pres.
  - apply deferred_register_pres.
Qed.

Lemma run_calls_pres (fuel : nat) (cs : list call) :
  forall w w', Inv w -> run_calls callback fuel cs w = Done w' ->
  Pres w w' /\ forall t, In t (map call_type cs) -> In t (callback_log w').
Proof.
  induction cs as [|c r IH]; intros w w' HI H; simpl in H.
  - inversion H; subst; split; [apply Pres_refl; auto|intros _ []].
  - destruct (run_call callback fuel c w) as [w1| |] eqn:E; try discriminate; simpl in H.
    destruct (run_call_pres fuel c w w1 HI E) as [P1 Hc].
    destruct (IH w1 w' (proj1 P1) H) as [P2 Hr].
    split; [apply (Pres_trans w w1 w'); auto|].
    intros u [<-|Hu]; [|apply Hr; exact Hu].
    destruct P2 as [_ [post Hp]]; rewrite Hp; apply in_app_iff; left; exact Hc.
Qed.

Lemma run_calls_app (fuel : nat) (cs1 cs2 : list call) (w : World) :
  run_calls callback fuel (cs1 ++ cs2) w =
  res_bind (run_calls callback fuel cs1 w) (run_calls callback fuel cs2).
Proof.
  revert w; induction cs1 as [|c r IH]; intros w; simpl; [reflexivity|].
  destruct (run_call callback fuel c w); simpl; auto.
Qed.

(** A call that finds its type unregistered runs that type's callback,
    before any callback it triggers in turn. *)
Lemma run_call_first (fuel : nat) (c : call) (w w' : World) :
  Inv w -> ~ In (call_type c) (callback_log w) ->
  run_call callback fuel c w = Done w' ->
  exists post, callback_log w' = callback_log w ++ call_type c :: post.
Proof.
  intros HI Hn H.
  assert (Hr : is_registered (call_type c) (ledger_view w) = false).
  { destruct (is_registered _ _) eqn:E; [|reflexivity].
    apply is_registered_In, (proj1 (proj2 HI _)) in E; contradiction. }
  assert (D : forall t, is_registered t (ledger_view w) = false ->
                deferred_register callback fuel t w = Done w' ->
                exists post, callback_log w' = callback_log w ++ t :: post).
  { intros t Ht Hd; destruct fuel as [|f]; simpl in Hd; [discriminate|].
    destruct (deferred_mark t w) as [[b w1]|] eqn:E; [|discriminate].
    destruct (deferred_mark_spec t w b w1 E) as [Hb [HV HL]].
    rewrite Ht in Hb; simpl in Hb; subst b.
    destruct (after_mark t w w1 true HI (f_equal negb (eq_sym Ht)) HV HL) as [HI1 HL1].
    destruct (fresh_callback _ t w w1 w' (deferred_register_reg f) HI1 HL1 Hd)
      as [_ Hp]; exact Hp. }
  destruct c as [t|t|t]; simpl in *; [|apply D; auto|apply D; auto].
  unfold world_register in H.
  destruct (world_mark t w) as [b w1] eqn:E.
  destruct (world_mark_spec t w b w1 E) as [Hb [HV HL]].
  rewrite Hr in Hb; simpl in Hb; subst b.
  destruct (after_mark t w w1 true HI (f_equal negb (eq_sym Hr)) HV HL) as [HI1 HL1].
  destruct fuel as [|f]; [discriminate|].
  destruct (run_callback callback (deferred_register callback f) t w1) as [x| |] eqn:R;
    try discriminate; simpl in H; apply flush_commands_done in H; subst w'.
  destruct (fresh_callback _ t w w1 x (deferred_register_reg f) HI1 HL1 R) as [_ Hp].
  exact Hp.
Qed.

End Callbacks.

Lemma Inv_empty_world : Inv empty_world.
Proof. split; [constructor|simpl; tauto]. Qed.

Lemma Inv_plugin_build_empty : Inv (plugin_build empty_world).
Proof. split; [constructor|simpl; tauto]. Qed.

Lemma send_all_spec (reqs : list (label * SystemConfigs)) :
  forall w w' p, events w = Some p -> send_all reqs w = Done w' ->
  events w' = Some (p ++ map (fun '(l, s) => AddSystemsMk l s) reqs) /\
  schedules w' = schedules w.
Proof.
  induction reqs as [|[l s] r IH]; intros w w' p Hp H; simpl in H.
  - inversion H; subst; rewrite app_nil_r; auto.
  - unfold deferred_add_systems, AddSystems_new in H; rewrite Hp in H.
    destruct (label_eqb l AddingSystems); simpl in H; [discriminate|].
    destruct (IH _ w' (p ++ [AddSystemsMk l s]) (eq_refl : events (set_events _ w) = _) H) as [He Hs].
    rewrite He, <- app_assoc; split; [reflexivity|exact Hs].
Qed.

(** The drain on a queue [q]: the schedule of each label gains, in queue
    order, the systems of the events that target it. *)
Lemma add_requested_systems_spec (w : World) (q : list AddSystemsEv) :
  events w = Some q ->
  exists w', add_requested_systems w = Done w' /\ events w' = Some [] /\
  forall l, schedules_get l (schedules w') =
    if targets l q then
      Some (match schedules_get l (schedules w) with Some c => c | None => [] end
            ++ configs_for l q)
    else schedules_get l (schedules w).
Proof.
  intros Hq; unfold add_requested_systems; rewrite Hq; simpl.
  eexists; split; [reflexivity|split; [reflexivity|]].
  intros l; simpl; apply fold_schedules_get.
Qed.

(* ------------------------------------------------------------------ *)
(** ** C1: the registration callback runs once per world *)

Definition no_actions (_ : rty) : list action := [].

(** C1 (counterexample): the ledger is a resource of each [World]; an
    [App] and one of its [SubApp]s are two worlds of one process, and
    registering [i32] in both runs its callback twice in that process. *)
Lemma C1_two_worlds_run_callback_twice :
  match run_call no_actions 1 (CWorld RI32) (plugin_build empty_world),
        run_call no_actions 1 (CWorld RI32) (plugin_build empty_world) with
  | Done app_world, Done sub_app_world =>
      count_occ rty_eq_dec (callback_log app_world) RI32 +
      count_occ rty_eq_dec (callback_log sub_app_world) RI32 = 2
  | _, _ => False
  end.
Proof. vm_compute; reflexivity. Qed.

(** C1 (amended): in one world satisfying [Inv] (a fresh world, or one
    after [RegisterInWorldPlugin::build]), after any sequence of
    registrations by any path that completes without panicking, every
    type's callback has run at most once, exactly once for each type that
    was called, and it ran during the first call that found the type
    unregistered, before any callback that call triggered in turn. *)
Theorem C1_callback_once_per_world (callback : rty -> list action) (fuel : nat)
    (cs : list call) (w w' : World) :
  Inv w -> run_calls callback fuel cs w = Done w' ->
  (forall t, count_occ rty_eq_dec (callback_log w') t <= 1) /\
  (forall t, In t (map call_type cs) -> count_occ rty_eq_dec (callback_log w') t = 1) /\
  (forall cs1 c cs2 w1, cs = cs1 ++ c :: cs2 ->
     run_calls callback fuel cs1 w = Done w1 ->
     ~ In (call_type c) (callback_log w1) ->
     exists w2 post, run_call callback fuel c w1 = Done w2 /\
       callback_log w2 = callback_log w1 ++ call_type c :: post).
Proof.
  intros HI H.
  destruct (run_calls_pres callback fuel cs w w' HI H) as [[[HN _] _] Hin].
  assert (Hle : forall t, count_occ rty_eq_dec (callback_log w') t <= 1)
    by (apply NoDup_count_occ; exact HN).
  split; [exact Hle|split].
  - intros t Ht; specialize (Hle t); apply Hin, (count_occ_In rty_eq_dec) in Ht; lia.
  - intros cs1 c cs2 w1 -> H1 Hn.
    rewrite run_calls_app, H1 in H; simpl in H.
    destruct (run_call callback fuel c w1) as [w2| |] eqn:E; try discriminate.
    destruct (run_calls_pres callback fuel cs1 w w1 HI H1) as [[HI1 _] _].
    destruct (run_call_first callback fuel c w1 w2 HI1 Hn E) as [post Hp].
    exists w2, post; split; [reflexivity|exact Hp].
Qed.

(** Two types whose callbacks register each other, and on-add firings
    and direct registrations interleaved. *)
Definition mutual_callbacks (t : rty) : list action :=
  match t with
  | RI32 => [ARegister RBool; AQueue (Cmd 1 false)]
  | RBool => [ARegister RI32; AAddSystems (Label 0) [7]]
  | _ => []
  end.

Definition mutual_calls : list call :=
  [COnAdd RBool; CWorld RI32; COnAdd RBool; CDeferred (RNamed 3); CWorld RBool].

Definition mutual_final : World :=
  match run_calls mutual_callbacks 4 mutual_calls (plugin_build empty_world) with
  | Done w => w
  | _ => empty_world
  end.

Lemma C1_callback_once_per_world_witness :
  Inv (plugin_build empty_world) /\
  run_calls mutual_callbacks 4 mutual_calls (plugin_build empty_world) = Done mutual_final /\
  count_occ rty_eq_dec (callback_log mutual_final) RBool = 1.
Proof.
  assert (H : run_calls mutual_callbacks 4 mutual_calls (plugin_build empty_world)
              = Done mutual_final) by (vm_compute; reflexivity).
  split; [exact Inv_plugin_build_empty|split; [exact H|]].
  apply (proj1 (proj2 (C1_callback_once_per_world mutual_callbacks 4 mutual_calls
           (plugin_build empty_world) mutual_final Inv_plugin_build_empty H))).
  simpl; tauto.
Defined.

(* ------------------------------------------------------------------ *)
(** ** C2: the ledger *)

(** C2: from the default (empty) ledger, [RegisteredTypes::register]
    returns [true] exactly on the first call for an identity; it returns
    the negation of [is_registered] and leaves the type registered;
    [is_registered] is a function of the ledger alone, and no ledger
    operation unregisters a type. *)
Theorem C2_ledger_first_call_only :
  (forall ts i t, nth_error ts i = Some t ->
     nth_error (fst (register_seq ts RegisteredTypes_default)) i =
     Some (negb (existsb (rty_eqb t) (firstn i ts)))) /\
  (forall t r, fst (register t r) = negb (is_registered t r) /\
               is_registered t (snd (register t r)) = true) /\
  (forall t u r, is_registered u r = true -> is_registered u (snd (register t r)) = true).
Proof.
  assert (Hmono : forall t u r, is_registered u r = true ->
                    is_registered u (snd (register t r)) = true).
  { intros t u r H; rewrite is_registered_after, H; reflexivity. }
  assert (Hseq : forall ts r i t, nth_error ts i = Some t ->
     nth_error (fst (register_seq ts r)) i =
     Some (negb (is_registered t r || existsb (rty_eqb t) (firstn i ts)))).
  { induction ts as [|t0 ts IH]; intros r i t Hi; [destruct i; discriminate|].
    simpl; destruct (register t0 r) as [b r1] eqn:E.
    destruct (register_seq ts r1) as [bs r2] eqn:E2.
    destruct i as [|i]; simpl in Hi |- *.
    - inversion Hi; subst t0. rewrite register_result in E.
      destruct (is_registered t r); inversion E; reflexivity.
    - specialize (IH r1 i t Hi); rewrite E2 in IH; simpl in IH; rewrite IH.
      replace r1 with (snd (register t0 r)) by (rewrite E; reflexivity).
      rewrite is_registered_after; unfold rty_eqb at 2.
      destruct (rty_eq_dec t t0) as [->|Hn].
      + rewrite rty_eqb_refl; simpl; rewrite !orb_true_r; reflexivity.
      + rewrite (rty_eqb_neq t t0 Hn); simpl; rewrite orb_false_r; reflexivity. }
  split; [|split].
  - intros ts i t Hi; rewrite (Hseq ts _ i t Hi); reflexivity.
  - intros t r; split.
    + rewrite register_result; destruct (is_registered t r); reflexivity.
    + rewrite is_registered_after, rty_eqb_refl, orb_true_r; reflexivity.
  - exact Hmono.
Qed.

(* ------------------------------------------------------------------ *)
(** ** C3: [AddSystems::new] refuses the reserved label *)

(** C3: [AddSystems::new] panics exactly for the label [AddingSystems] and
    builds the event for every other label; submitting a request for
    [AddingSystems], from a [DeferredWorld] or a [World], panics with the
    world (and so the event queue) as it was. *)
Theorem C3_adding_systems_label_panics (l : label) (s : SystemConfigs) (w : World) :
  (AddSystems_new l s = None <-> l = AddingSystems) /\
  (l <> AddingSystems -> AddSystems_new l s = Some (AddSystemsMk l s)) /\
  deferred_add_systems AddingSystems s w = Panicked w /\
  world_add_systems AddingSystems s w = Panicked w.
Proof.
  unfold world_add_systems, deferred_add_systems, AddSystems_new.
  assert (HA : label_eqb AddingSystems AddingSystems = true) by (apply label_eqb_true; auto).
  rewrite HA; split; [|split; [|destruct (events w); split; reflexivity]].
  - destruct (label_eqb l AddingSystems) eqn:E; split; intros H; try reflexivity;
      [apply label_eqb_true; exact E|discriminate|subst; congruence].
  - intros Hn; rewrite (label_eqb_neq _ _ Hn); reflexivity.
Qed.

(* ------------------------------------------------------------------ *)
(** ** C4: the drain *)

(** C4: one run of [add_requested_systems] on a queue [q] empties the
    queue, and the schedule of each label targeted by some event of [q]
    (created when it did not exist) gains the systems of those events in
    submission order; other schedules are unchanged. *)
Theorem C4_drain_merges_in_order (w : World) (q : list AddSystemsEv) :
  events w = Some q ->
  exists w', add_requested_systems w = Done w' /\ events w' = Some [] /\
  forall l, schedules_get l (schedules w') =
    if targets l q then
      Some (match schedules_get l (schedules w) with Some c => c | None => [] end
            ++ configs_for l q)
    else schedules_get l (schedules w).
Proof. apply add_requested_systems_spec. Qed.

Definition drain_example_world : World :=
  set_schedules [(Label 1, [10])]
    (set_events [AddSystemsMk (Label 1) [1; 2]; AddSystemsMk (Label 2) [3];
                 AddSystemsMk (Label 1) [4]] (plugin_build empty_world)).

Lemma C4_drain_merges_in_order_witness :
  exists w', add_requested_systems drain_example_world = Done w' /\
    events w' = Some [] /\
    schedules_get (Label 1) (schedules w') = Some [10; 1; 2; 4] /\
    schedules_get (Label 2) (schedules w') = Some [3].
Proof.
  destruct (C4_drain_merges_in_order drain_example_world
              [AddSystemsMk (Label 1) [1; 2]; AddSystemsMk (Label 2) [3];
               AddSystemsMk (Label 1) [4]] eq_refl) as [w' [H1 [H2 H3]]].
  exists w'; split; [exact H1|split; [exact H2|]].
  rewrite !H3; split; reflexivity.
Defined.

(* ------------------------------------------------------------------ *)
(** ** C5: events sent after a drain wait for the next drain *)

(** C5: the drain applies exactly the events queued when it starts (it
    runs no other code, so nothing is sent while it runs); events sent
    afterwards stay queued and unapplied, and the next drain applies them. *)
Theorem C5_late_events_next_drain (w w1 w2 : World) (q : list AddSystemsEv)
    (reqs : list (label * SystemConfigs)) :
  events w = Some q ->
  add_requested_systems w = Done w1 ->
  send_all reqs w1 = Done w2 ->
  let late := map (fun '(l, s) => AddSystemsMk l s) reqs in
  (forall l, schedules_get l (schedules w1) =
     if targets l q then
       Some (match schedules_get l (schedules w) with Some c => c | None => [] end
             ++ configs_for l q)
     else schedules_get l (schedules w)) /\
  events w2 = Some late /\ schedules w2 = schedules w1 /\
  exists w3, add_requested_systems w2 = Done w3 /\ events w3 = Some [] /\
  forall l, schedules_get l (schedules w3) =
    if targets l late then
      Some (match schedules_get l (schedules w1) with Some c => c | None => [] end
            ++ configs_for l late)
    else schedules_get l (schedules w1).
Proof.
  intros Hq H1 H2 late.
  destruct (add_requested_systems_spec w q Hq) as [w1' [E [He Hs]]].
  rewrite H1 in E; inversion E; subst w1'.
  destruct (send_all_spec reqs w1 w2 [] He H2) as [He2 Hs2].
  split; [exact Hs|split; [exact He2|split; [exact Hs2|]]].
  destruct (add_requested_systems_spec w2 late He2) as [w3 [E3 [He3 Hs3]]].
  exists w3; split; [exact E3|split; [exact He3|]].
  intros l; rewrite Hs3, Hs2; reflexivity.
Qed.

Lemma C5_late_events_next_drain_witness :
  exists w1 w2, add_requested_systems drain_example_world = Done w1 /\
    send_all [(Label 2, [9])] w1 = Done w2 /\
    schedules_get (Label 2) (schedules w2) = Some [3] /\
    exists w3, add_requested_systems w2 = Done w3 /\
      schedules_get (Label 2) (schedules w3) = Some [3; 9].
Proof.
  destruct (add_requested_systems_spec drain_example_world _ eq_refl) as [w1 [H1 [He1 _]]].
  assert (Hs : exists w2, send_all [(Label 2, [9])] w1 = Done w2).
  { unfold send_all, deferred_add_systems; rewrite He1; eexists; reflexivity. }
  destruct Hs as [w2 H2].
  destruct (C5_late_events_next_drain drain_example_world w1 w2 _ [(Label 2, [9])]
              eq_refl H1 H2) as [Hs1 [_ [Hs2 [w3 [H3 [_ Hs3]]]]]].
  exists w1, w2; split; [exact H1|split; [exact H2|split]].
  - rewrite Hs2, Hs1; reflexivity.
  - exists w3; split; [exact H3|]; rewrite Hs3, Hs1; reflexivity.
Defined.

(* ------------------------------------------------------------------ *)
(** ** C6: what can make a registration panic *)

(** C6 (counterexample): [DeferredWorld::register] (and so the [on_add]
    path) panics in its own bookkeeping when the world has no
    [RegisteredTypes] resource: [resource_mut] finds none. *)
Lemma C6_deferred_register_panics_without_ledger :
  deferred_register no_actions 1 RI32 empty_world = Panicked empty_world /\
  register_on_add no_actions 1 RI32 empty_world = Panicked empty_world.
Proof. split; reflexivity. Qed.

(** A command queued before [World::register] that panics when applied
    makes the registration of a new type panic in [flush_commands], after
    the callback has returned. *)
Lemma world_register_flush_panic_example :
  let w := queue_command (Cmd 0 true) (plugin_build empty_world) in
  run_callback no_actions (deferred_register no_actions 0) RI32 (set_ledger [RI32] w) =
    Done (log_callback RI32 (set_ledger [RI32] w)) /\
  world_register no_actions 1 RI32 w = Panicked (log_callback RI32 (set_ledger [RI32] w)).
Proof. split; reflexivity. Qed.

(** C6 (amended): the check-and-mark of [World::register] never panics,
    and that of [DeferredWorld::register] panics only when the world has
    no [RegisteredTypes] resource.  Any other panic of a registration is a
    panic of user code: of the callback, run on the marked world, or, for
    [World::register] of a new type, of a queued command (queued before the
    call or by the callback) that [flush_commands] applies once the
    callback has returned; that flush panics exactly when such a command
    is in the queue. *)
Theorem C6_register_bookkeeping_panics (callback : rty -> list action) (f : nat)
    (t : rty) (w w' : World) :
  let marked := set_ledger (snd (register t (ledger_view w))) w in
  (deferred_register callback (S f) t w = Panicked w' ->
     (ledger w = None /\ w' = w) \/
     run_callback callback (deferred_register callback f) t marked = Panicked w') /\
  (world_register callback (S f) t w = Panicked w' ->
     run_callback callback (deferred_register callback f) t marked = Panicked w' \/
     exists w2, run_callback callback (deferred_register callback f) t marked = Done w2 /\
       flush_commands w2 = Panicked w' /\
       exists c, In c (command_queue w2) /\ cmd_panics c = true) /\
  (forall w2, is_registered t (ledger_view w) = false ->
     run_callback callback (deferred_register callback f) t marked = Done w2 ->
     world_register callback (S f) t w = flush_commands w2 /\
     ((exists w3, flush_commands w2 = Panicked w3) <->
      exists c, In c (command_queue w2) /\ cmd_panics c = true)).
Proof.
  intros marked; split; [|split].
  - simpl; unfold deferred_mark.
    destruct (ledger w) as [r|] eqn:El; [|intros H; inversion H; left; auto].
    unfold marked, ledger_view; rewrite El, register_result.
    destruct (is_registered t r); simpl; [discriminate|intros H; right; exact H].
  - unfold world_register, world_mark, marked.
    destruct (register t (ledger_view w)) as [b r'] eqn:E.
    fold (ledger_view w); rewrite E; simpl.
    destruct b; [|discriminate].
    destruct (run_callback _ _ _ _) as [x|x|]; simpl; intros H.
    + right; exists x; split; [reflexivity|split; [exact H|]].
      apply flush_commands_panics; exists w'; exact H.
    + left; exact H.
    + discriminate.
  - intros w2 Hr Hd; split; [|apply flush_commands_panics].
    unfold world_register, world_mark; fold (ledger_view w).
    unfold marked in Hd; rewrite register_result, Hr in Hd |- *; simpl in *.
    rewrite Hd; reflexivity.
Qed.

(* ------------------------------------------------------------------ *)
(** ** C7: [add_systems] from a [World] also defers *)

Definition queue_example_world : World := plugin_build empty_world.

(** C7 (counterexample): [World::add_systems] does not touch the target
    schedule; it queues an [AddSystems] event like the [DeferredWorld]
    version. *)
Lemma C7_world_add_systems_defers :
  world_add_systems (Label 1) [5] queue_example_world =
    Done (set_events [AddSystemsMk (Label 1) [5]] queue_example_world) /\
  schedules_get (Label 1) (schedules (set_events [AddSystemsMk (Label 1) [5]]
                                        queue_example_world)) = None.
Proof. split; reflexivity. Qed.

(** C7 (amended): [add_systems] has the same behaviour from a [World] and
    from a [DeferredWorld]: it leaves the schedules as they are and
    appends the [AddSystems] event to the queue, applied at the next
    drain. *)
Theorem C7_add_systems_same_from_both_handles (l : label) (s : SystemConfigs)
    (w : World) :
  world_add_systems l s w = deferred_add_systems l s w /\
  (forall w', world_add_systems l s w = Done w' ->
     schedules w' = schedules w /\
     exists q, events w = Some q /\ events w' = Some (q ++ [AddSystemsMk l s])).
Proof.
  split; [reflexivity|].
  intros w' H; unfold world_add_systems, deferred_add_systems, AddSystems_new in H.
  destruct (events w) as [q|] eqn:Eq; [|discriminate].
  destruct (label_eqb l AddingSystems); inversion H; subst.
  split; [reflexivity|exists q; auto].
Qed.

(* ------------------------------------------------------------------ *)
(** ** C8: distinct instantiations are distinct identities *)

(** C8: marking a type registered in the ledger leaves the answer of
    [is_registered] for every other type as it was. *)
Theorem C8_distinct_identities (t u : rty) (r : RegisteredTypes) :
  t <> u -> is_registered u (snd (register t r)) = is_registered u r.
Proof.
  intros Hn; rewrite is_registered_after, rty_eqb_neq; [apply orb_false_r|congruence].
Qed.

(** [G<i32, bool>] and [G<bool, i32>]. *)
Definition G_i32_bool : rty := RGeneric2 0 RI32 RBool.
Definition G_bool_i32 : rty := RGeneric2 0 RBool RI32.

Lemma C8_distinct_identities_witness :
  G_i32_bool <> G_bool_i32 /\
  is_registered G_bool_i32 (snd (register G_i32_bool RegisteredTypes_default)) = false.
Proof.
  assert (Hn : G_i32_bool <> G_bool_i32) by discriminate.
  split; [exact Hn|].
  rewrite (C8_distinct_identities G_i32_bool G_bool_i32 RegisteredTypes_default Hn).
  reflexivity.
Defined.

(* ------------------------------------------------------------------ *)
(** ** C9: the derived [on_add] hook *)

(** C9: the generated [on_add] closure calls [register_on_add::<Self>]
    exactly once, as its first statement, and runs the user's [on_add]
    (if any) only after it returned. *)
Theorem C9_hook_registers_first_once (callback : rty -> list action)
    (user_hook : nat -> list action) (fuel : nat) (t : rty) (on_add : option nat)
    (w : World) :
  (exists rest, hook_register_on_add_call on_add = RegisterOnAddSelf :: rest /\
                ~ In RegisterOnAddSelf rest) /\
  on_add_hook callback user_hook fuel t on_add w =
    res_bind (register_on_add callback fuel t w)
      (fun w' => match on_add with
                 | Some p => run_actions (exec_action (deferred_register callback fuel))
                               (user_hook p) w'
                 | None => Done w'
                 end).
Proof.
  split.
  - destruct on_add as [p|]; eexists; split; try reflexivity;
      simpl; intros H; intuition discriminate.
  - unfold on_add_hook, hook_register_on_add_call; simpl.
    destruct (register_on_add callback fuel t w) as [w'| |]; simpl; [|reflexivity..].
    destruct on_add as [p|]; simpl; [|reflexivity].
    destruct (run_actions _ _ w'); reflexivity.
Qed.

(* ------------------------------------------------------------------ *)
(** ** C10: [World::register] *)

Definition registered_world : World := MkWorld (Some [RI32]) 0 3 None [] [] [] [RI32].

(** C10 (counterexample): registering an already registered type through
    a [World] runs no callback and no flush, but the [Mut] returned by
    [get_resource_or_insert_with] is written through, so the ledger is
    marked changed at the current tick: the world is not left as it was. *)
Lemma C10_already_registered_marks_ledger_changed :
  world_register no_actions 1 RI32 registered_world =
    Done (MkWorld (Some [RI32]) 3 3 None [] [] [] [RI32]) /\
  MkWorld (Some [RI32]) 3 3 None [] [] [] [RI32] <> registered_world.
Proof. split; [reflexivity|intros H; inversion H]. Qed.

(** C10 (amended): [World::register] reads a missing ledger as the default
    (empty) one and inserts it; for a new type it runs the callback on the
    world with the type marked, then flushes the queued commands; for a
    registered type it runs neither, and the world changes only in the
    ledger's change tick. *)
Theorem C10_world_register_shape (callback : rty -> list action) (f : nat) (t : rty)
    (w : World) :
  (is_registered t (ledger_view w) = false ->
     world_register callback (S f) t w =
       res_bind (run_callback callback (deferred_register callback f) t
                   (set_ledger (ledger_view w ++ [t]) w))
         flush_commands) /\
  (is_registered t (ledger_view w) = true ->
     world_register callback (S f) t w =
       Done (MkWorld (ledger w) (change_tick w) (change_tick w) (events w) (schedules w)
               (command_queue w) (applied w) (callback_log w))).
Proof.
  split; intros Hr; unfold world_register, world_mark; fold (ledger_view w);
    rewrite register_result, Hr; [reflexivity|].
  unfold set_ledger; f_equal; f_equal.
  unfold ledger_view in *; destruct (ledger w); [reflexivity|discriminate].
Qed.

(* ------------------------------------------------------------------ *)
(** ** The derive: attribute parsing and generated hooks *)

Module MacroFacts.
Import Macros.

Lemma parse_attrs_app (a : Attrs) (ms1 ms2 : list attribute) :
  parse_attrs a (ms1 ++ ms2) =
  match parse_attrs a ms1 with
  | POk a' => parse_attrs a' ms2
  | PErr e => PErr e
  end.
Proof.
  revert a; induction ms1 as [|m r IH]; intros a; simpl; [reflexivity|].
  destruct (parse_nested_meta a m); [apply IH|reflexivity].
Qed.

(** An item that fails whatever was parsed before it. *)
Definition always_fails (n : nested_meta) : Prop :=
  forall a, exists e, parse_nested a n = PErr e.

Lemma parse_nested_all_fails (n : nested_meta) (ns : list nested_meta) :
  always_fails n -> In n ns -> forall a, exists e, parse_nested_all a ns = PErr e.
Proof.
  intros Hn; induction ns as [|m r IH]; intros Hin a; [destruct Hin|].
  simpl; destruct Hin as [<-|Hin].
  - destruct (Hn a) as [e He]; rewrite He; eauto.
  - destruct (parse_nested a m) as [a'|e]; [apply IH; exact Hin|eauto].
Qed.

Lemma parse_attrs_fails (m : attribute) (ms : list attribute) :
  (forall a, exists e, parse_nested_meta a m = PErr e) -> In m ms ->
  forall a, exists e, parse_attrs a ms = PErr e.
Proof.
  intros Hm; induction ms as [|m' r IH]; intros Hin a; [destruct Hin|].
  simpl; destruct Hin as [<-|Hin].
  - destruct (Hm a) as [e He]; rewrite He; eauto.
  - destruct (parse_nested_meta a m') as [a'|e]; [apply IH; exact Hin|eauto].
Qed.

Definition hook_name (h : hook_registration) : ident :=
  match h with
  | RegOnAdd _ => ON_ADD
  | RegHook hook _ => hook
  end.

End MacroFacts.

Module MacroTheorems.
Import Macros MacroFacts.

(** Without any [#[component(..)]] attribute the derive emits a
    table-stored component whose only hook is the [on_add] hook calling
    [register_on_add::<Self>]; other attributes are ignored. *)
Theorem derive_without_component_attrs (ast_attrs : list attribute) :
  filter is_component ast_attrs = [] ->
  derive_component ast_attrs =
    ComponentImpls "Table"%string [RegOnAdd [RegisterOnAddSelf]].
Proof.
  intros H; unfold derive_component, parse_component_attr; rewrite H; reflexivity.
Qed.

Lemma derive_without_component_attrs_witness :
  filter is_component [Attribute "derive"%string None; Attribute "doc"%string (Some [])]
    = [] /\
  derive_component [Attribute "derive"%string None; Attribute "doc"%string (Some [])] =
    ComponentImpls "Table"%string [RegOnAdd [RegisterOnAddSelf]].
Proof.
  assert (H : filter is_component [Attribute "derive"%string None;
                                   Attribute "doc"%string (Some [])] = [])
    by reflexivity.
  split; [exact H|apply (derive_without_component_attrs _ H)].
Defined.

(** Attributes are read left to right: appending one attribute continues
    from what the earlier ones gave (so a later setting of a key overrides
    an earlier one), an earlier error stands, and a non-[component]
    attribute changes nothing. *)
Theorem parse_component_attr_snoc (ast_attrs : list attribute) (m : attribute) :
  parse_component_attr (ast_attrs ++ [m]) =
  match parse_component_attr ast_attrs with
  | POk a => if is_component m then parse_nested_meta a m else POk a
  | PErr e => PErr e
  end.
Proof.
  unfold parse_component_attr; rewrite filter_app, parse_attrs_app; simpl.
  destruct (parse_attrs default_attrs (filter is_component ast_attrs)) as [a|e];
    [|reflexivity].
  destruct (is_component m); simpl; [|reflexivity].
  destruct (parse_nested_meta a m); reflexivity.
Qed.

(** [storage = ".."] accepts exactly ["Table"] and ["SparseSet"], sets only
    the storage, and reports any other string as an invalid storage type. *)
Theorem storage_attr_values (a : Attrs) (s : String.string) :
  ((exists a', parse_nested a (NestedMeta STORAGE (VLitStr s)) = POk a') <->
   s = TABLE \/ s = SPARSE_SET) /\
  (s <> TABLE -> s <> SPARSE_SET ->
   parse_nested a (NestedMeta STORAGE (VLitStr s)) = PErr (InvalidStorage s)) /\
  (forall a', parse_nested a (NestedMeta STORAGE (VLitStr s)) = POk a' ->
   storage a' = (if String.eqb s TABLE then Table else SparseSet) /\
   on_add a' = on_add a /\ on_insert a' = on_insert a /\
   on_replace a' = on_replace a /\ on_remove a' = on_remove a).
Proof.
  unfold parse_nested; simpl.
  destruct (String.eqb s TABLE) eqn:E1; [|destruct (String.eqb s SPARSE_SET) eqn:E2].
  - apply String.eqb_eq in E1; subst s.
    split; [split; [eauto|intros _; eauto]|split; [intros H; congruence|]].
    intros a' H; inversion H; subst; simpl; auto.
  - apply String.eqb_eq in E2; subst s.
    split; [split; [eauto|intros _; eauto]|split; [intros _ H; congruence|]].
    intros a' H; inversion H; subst; simpl; auto.
  - apply String.eqb_neq in E1, E2.
    split; [split; [intros [a' H]; discriminate|intros [H|H]; contradiction]|].
    split; [reflexivity|intros a' H; discriminate].
Qed.

(** A [#[component(..)]] attribute with a key other than [storage],
    [on_add], [on_insert], [on_replace] and [on_remove], or a bare
    [#[component]], anywhere among the attributes makes the derive emit a
    compile error and no impl. *)
Theorem derive_rejects_unknown_key (ast_attrs : list attribute) (m : attribute)
    (n : nested_meta) (ns : list nested_meta) :
  In m ast_attrs -> is_component m = true ->
  (attr_args m = None \/
   (attr_args m = Some ns /\ In n ns /\
    ~ In (nested_path n) [STORAGE; ON_ADD; ON_INSERT; ON_REPLACE; ON_REMOVE])) ->
  exists e, derive_component ast_attrs = CompileError e.
Proof.
  intros Hin Hc Hk.
  assert (Hm : forall a, exists e, parse_nested_meta a m = PErr e).
  { intros a; unfold parse_nested_meta.
    destruct Hk as [Hns | [Hns [Hn Hp]]]; rewrite Hns; [eexists; reflexivity|].
    apply (parse_nested_all_fails n); [|exact Hn].
    intros a'; unfold parse_nested.
    destruct (String.eqb (nested_path n) STORAGE) eqn:E0;
      [apply String.eqb_eq in E0; exfalso; apply Hp; rewrite E0; simpl; tauto|].
    destruct (String.eqb (nested_path n) ON_ADD) eqn:E1;
      [apply String.eqb_eq in E1; exfalso; apply Hp; rewrite E1; simpl; tauto|].
    destruct (String.eqb (nested_path n) ON_INSERT) eqn:E2;
      [apply String.eqb_eq in E2; exfalso; apply Hp; rewrite E2; simpl; tauto|].
    destruct (String.eqb (nested_path n) ON_REPLACE) eqn:E3;
      [apply String.eqb_eq in E3; exfalso; apply Hp; rewrite E3; simpl; tauto|].
    destruct (String.eqb (nested_path n) ON_REMOVE) eqn:E4;
      [apply String.eqb_eq in E4; exfalso; apply Hp; rewrite E4; simpl; tauto|].
    eexists; reflexivity. }
  unfold derive_component, parse_component_attr.
  destruct (parse_attrs_fails m (filter is_component ast_attrs) Hm
              (proj2 (filter_In _ _ _) (conj Hin Hc)) default_attrs) as [e He].
  rewrite He; eauto.
Qed.

Lemma derive_rejects_unknown_key_witness :
  exists e, derive_component
    [Attribute COMPONENT (Some [NestedMeta ON_ADD (VPath 1);
                                NestedMeta "on_despawn"%string (VPath 2)])] =
    CompileError e.
Proof.
  apply (derive_rejects_unknown_key _
           (Attribute COMPONENT (Some [NestedMeta ON_ADD (VPath 1);
                                       NestedMeta "on_despawn"%string (VPath 2)]))
           (NestedMeta "on_despawn"%string (VPath 2))
           [NestedMeta ON_ADD (VPath 1); NestedMeta "on_despawn"%string (VPath 2)]);
    [simpl; auto|reflexivity|right; split; [reflexivity|split]].
  - simpl; auto.
  - cbn; intros H; intuition discriminate.
Defined.

(** The generated [register_component_hooks] registers the [on_add] hook
    first and registers each hook kind at most once (bevy refuses a
    second registration of a hook), with [STORAGE_TYPE] [Table] or
    [SparseSet]. *)
Theorem derive_hooks_once (ast_attrs : list attribute) (st : ident)
    (hooks : list hook_registration) :
  derive_component ast_attrs = ComponentImpls st hooks ->
  (st = "Table"%string \/ st = "SparseSet"%string) /\
  (exists a, hooks = RegOnAdd (hook_register_on_add_call (on_add a)) :: tl hooks) /\
  NoDup (map hook_name hooks).
Proof.
  unfold derive_component.
  destruct (parse_component_attr ast_attrs) as [a|e]; [|discriminate].
  intros H; inversion H; subst; clear H.
  split; [destruct (storage a); simpl; auto|split; [exists a; reflexivity|]].
  destruct (on_insert a), (on_replace a), (on_remove a); simpl;
    repeat constructor; simpl; intuition discriminate.
Qed.

Lemma derive_hooks_once_witness :
  derive_component
    [Attribute COMPONENT (Some [NestedMeta ON_INSERT (VPath 1);
                                NestedMeta STORAGE (VLitStr "SparseSet"%string)])] =
    ComponentImpls "SparseSet"%string
      [RegOnAdd (hook_register_on_add_call None); RegHook ON_INSERT 1] /\
  ("SparseSet"%string = "Table"%string \/ "SparseSet"%string = "SparseSet"%string) /\
  (exists a, [RegOnAdd (hook_register_on_add_call None); RegHook ON_INSERT 1] =
     RegOnAdd (hook_register_on_add_call (on_add a))
       :: tl [RegOnAdd (hook_register_on_add_call None); RegHook ON_INSERT 1]) /\
  NoDup (map hook_name [RegOnAdd (hook_register_on_add_call None); RegHook ON_INSERT 1]).
Proof.
  assert (E : derive_component
    [Attribute COMPONENT (Some [NestedMeta ON_INSERT (VPath 1);
                                NestedMeta STORAGE (VLitStr "SparseSet"%string)])] =
    ComponentImpls "SparseSet"%string
      [RegOnAdd (hook_register_on_add_call None); RegHook ON_INSERT 1])
    by reflexivity.
  split; [exact E|].
  exact (derive_hooks_once _ _ _ E).
Defined.

End MacroTheorems.

(* ------------------------------------------------------------------ *)
(** ** What a registration changes *)

(** [w'] keeps every registration of [w] (and the ledger resource), the
    schedules, and the queued events, to which only events for labels
    other than [AddingSystems] are appended. *)
Definition Grows (w w' : World) : Prop :=
  (forall u, is_registered u (ledger_view w) = true ->
             is_registered u (ledger_view w') = true) /\
  (ledger w <> None -> ledger w' <> None) /\
  schedules w' = schedules w /\
  (exists new, Forall (fun e => ev_schedule e <> AddingSystems) new /\
     events w' = match events w with Some q => Some (q ++ new) | None => None end).

(** ... and moreover applies no command, only queues new ones. *)
Definition Frame (w w' : World) : Prop :=
  Grows w w' /\ applied w' = applied w /\
  exists cs, command_queue w' = command_queue w ++ cs.

Lemma Grows_refl (w : World) : Grows w w.
Proof.
  split; [auto|split; [auto|split; [reflexivity|]]].
  exists []; split; [apply Forall_nil|simpl; destruct (events w); rewrite ?app_nil_r; reflexivity].
Qed.

Lemma Grows_trans (w1 w2 w3 : World) : Grows w1 w2 -> Grows w2 w3 -> Grows w1 w3.
Proof.
  intros [R1 [L1 [S1 [n1 [F1 E1]]]]] [R2 [L2 [S2 [n2 [F2 E2]]]]].
  split; [auto|split; [auto|split; [congruence|]]].
  exists (n1 ++ n2); split; [apply Forall_app; auto|].
  rewrite E2, E1; destruct (events w1); [rewrite app_assoc|]; reflexivity.
Qed.

Lemma Frame_refl (w : World) : Frame w w.
Proof.
  split; [apply Grows_refl|split; [reflexivity|exists []; rewrite app_nil_r; reflexivity]].
Qed.

Lemma Frame_trans (w1 w2 w3 : World) : Frame w1 w2 -> Frame w2 w3 -> Frame w1 w3.
Proof.
  intros [G1 [A1 [c1 C1]]] [G2 [A2 [c2 C2]]].
  split; [apply (Grows_trans _ w2); auto|split; [congruence|]].
  exists (c1 ++ c2); rewrite C2, C1, app_assoc; reflexivity.
Qed.

(** A world changed only in its ledger, which gains [t]. *)
Lemma set_ledger_frame (t : rty) (w : World) :
  Frame w (set_ledger (snd (register t (ledger_view w))) w) /\
  is_registered t (ledger_view (set_ledger (snd (register t (ledger_view w))) w)) = true.
Proof.
  assert (HV : ledger_view (set_ledger (snd (register t (ledger_view w))) w) =
               snd (register t (ledger_view w))) by reflexivity.
  rewrite HV, is_registered_after, rty_eqb_refl, orb_true_r; split; [|reflexivity].
  split; [|split; [reflexivity|exists []; rewrite app_nil_r; reflexivity]].
  split; [intros u Hu; rewrite HV, is_registered_after, Hu; reflexivity|].
  split; [simpl; discriminate|split; [reflexivity|]].
  exists []; split; [apply Forall_nil|simpl; destruct (events w); rewrite ?app_nil_r; reflexivity].
Qed.

Lemma deferred_mark_frame (t : rty) (w : World) (b : bool) (w1 : World) :
  deferred_mark t w = Some (b, w1) ->
  w1 = set_ledger (snd (register t (ledger_view w))) w.
Proof.
  unfold deferred_mark, ledger_view; destruct (ledger w) as [r|]; [|discriminate].
  destruct (register t r) eqn:E; intros H; inversion H; subst; reflexivity.
Qed.

Lemma world_mark_frame (t : rty) (w : World) :
  snd (world_mark t w) = set_ledger (snd (register t (ledger_view w))) w.
Proof.
  unfold world_mark; fold (ledger_view w); destruct (register t (ledger_view w)); reflexivity.
Qed.

Lemma run_actions_rel (R : World -> World -> Prop) (step : action -> World -> res) :
  (forall w, R w w) -> (forall w1 w2 w3, R w1 w2 -> R w2 w3 -> R w1 w3) ->
  (forall a w w', step a w = Done w' -> R w w') ->
  forall acts w w', run_actions step acts w = Done w' -> R w w'.
Proof.
  intros Hrefl Htrans Hstep acts; induction acts as [|a r IH]; intros w w' H; simpl in H.
  - inversion H; subst; apply Hrefl.
  - destruct (step a w) as [w1| |] eqn:E; try discriminate; simpl in H.
    apply (Htrans _ w1); [apply (Hstep a); exact E|apply IH; exact H].
Qed.

Lemma deferred_add_systems_frame (l : label) (s : SystemConfigs) (w w' : World) :
  deferred_add_systems l s w = Done w' -> Frame w w'.
Proof.
  unfold deferred_add_systems, AddSystems_new; intros H.
  destruct (events w) as [q|] eqn:Eq; [|discriminate].
  destruct (label_eqb l AddingSystems) eqn:El; inversion H; subst; clear H.
  split; [|split; [reflexivity|exists []; rewrite app_nil_r; reflexivity]].
  split; [auto|split; [auto|split; [reflexivity|]]].
  exists [AddSystemsMk l s]; split; [|rewrite Eq; reflexivity].
  constructor; [|constructor]; simpl; intros ->.
  unfold label_eqb in El; destruct (label_eq_dec AddingSystems AddingSystems); congruence.
Qed.

Lemma log_callback_frame (t : rty) (w : World) : Frame w (log_callback t w).
Proof.
  split; [|split; [reflexivity|exists []; rewrite app_nil_r; reflexivity]].
  split; [auto|split; [auto|split; [reflexivity|]]].
  exists []; split; [apply Forall_nil|simpl; destruct (events w); rewrite ?app_nil_r; reflexivity].
Qed.

Lemma queue_command_frame (c : command) (w : World) : Frame w (queue_command c w).
Proof.
  split; [|split; [reflexivity|exists [c]; reflexivity]].
  split; [auto|split; [auto|split; [reflexivity|]]].
  exists []; split; [apply Forall_nil|simpl; destruct (events w); rewrite ?app_nil_r; reflexivity].
Qed.

Section FrameCallbacks.
Variable callback : rty -> list action.

Lemma run_callback_frame (reg : rty -> World -> res) (t : rty) (x x' : World) :
  (forall u y y', reg u y = Done y' -> Frame y y') ->
  run_callback callback reg t x = Done x' -> Frame x x'.
Proof.
  intros Hreg H; unfold run_callback in H.
  apply (Frame_trans _ (log_callback t x)); [apply log_callback_frame|].
  refine (run_actions_rel Frame _ Frame_refl Frame_trans _ _ _ _ H).
  intros [u|l s|c] y y' Hs; simpl in Hs.
  - apply (Hreg u y y' Hs).
  - apply (deferred_add_systems_frame l s y y' Hs).
  - inversion Hs; subst; apply queue_command_frame.
Qed.

Lemma deferred_register_frame (fuel : nat) :
  forall t w w', deferred_register callback fuel t w = Done w' ->
  Frame w w' /\ is_registered t (ledger_view w') = true.
Proof.
  induction fuel as [|f IH]; intros t w w' H; simpl in H; [discriminate|].
  destruct (deferred_mark t w) as [[b w1]|] eqn:E; [|discriminate].
  rewrite (deferred_mark_frame t w b w1 E) in H.
  destruct (set_ledger_frame t w) as [F1 R1].
  destruct b.
  - assert (F2 : Frame (set_ledger (snd (register t (ledger_view w))) w) w').
    { apply (run_callback_frame (deferred_register callback f) t); [|exact H].
      intros u y y' Hy; apply (IH u y y' Hy). }
    split; [apply (Frame_trans _ _ _ F1 F2)|].
    destruct F2 as [[Hm _] _]; apply Hm; exact R1.
  - inversion H; subst; split; [exact F1|exact R1].
Qed.

End FrameCallbacks.

Lemma flush_commands_grows (w w' : World) : flush_commands w = Done w' -> Grows w w'.
Proof.
  intros H; apply flush_commands_done in H; subst w'.
  split; [auto|split; [auto|split; [reflexivity|]]].
  exists []; split; [apply Forall_nil|simpl; destruct (events w); rewrite ?app_nil_r; reflexivity].
Qed.

Section WorldFrame.
Variable callback : rty -> list action.

Lemma world_register_frame (fuel : nat) (t : rty) (w w' : World) :
  world_register callback fuel t w = Done w' ->
  Grows w w' /\ is_registered t (ledger_view w') = true /\
  (is_registered t (ledger_view w) = false ->
     command_queue w' = [] /\ exists cs, applied w' = applied w ++ command_queue w ++ cs) /\
  (is_registered t (ledger_view w) = true ->
     w' = set_ledger (ledger_view w) w).
Proof.
  intros H; unfold world_register in H.
  destruct (world_mark t w) as [b w1] eqn:E.
  pose proof (world_mark_frame t w) as Ew1; rewrite E in Ew1; simpl in Ew1; subst w1.
  destruct (world_mark_spec t w b _ E) as [Hb _].
  destruct (set_ledger_frame t w) as [F1 R1].
  destruct b.
  - destruct fuel as [|f]; [discriminate|].
    destruct (run_callback callback (deferred_register callback f) t
                (set_ledger (snd (register t (ledger_view w))) w)) as [x| |] eqn:R;
      try discriminate; simpl in H.
    pose proof (flush_commands_grows x w' H) as G2.
    apply flush_commands_done in H; subst w'.
    assert (F2 : Frame (set_ledger (snd (register t (ledger_view w))) w) x).
    { apply (run_callback_frame callback (deferred_register callback f) t); [|exact R].
      intros u y y' Hy; apply (deferred_register_frame callback f u y y' Hy). }
    destruct (Frame_trans _ _ _ F1 F2) as [G [A [cs C]]].
    split; [apply (Grows_trans _ x); [exact G|exact G2]|].
    split; [destruct F2 as [[Hm _] _]; apply Hm; exact R1|].
    split; [intros _; split; [reflexivity|exists cs; simpl; rewrite A, C, app_assoc; reflexivity]|].
    intros Hr; rewrite Hr in Hb; discriminate.
  - inversion H; subst w'; clear H.
    split; [apply F1|split; [exact R1|split]].
    + intros Hr; rewrite Hr in Hb; discriminate.
    + intros Hr; rewrite register_result, Hr; reflexivity.
Qed.

Lemma run_call_grows (fuel : nat) (c : call) (w w' : World) :
  run_call callback fuel c w = Done w' ->
  Grows w w' /\ is_registered (call_type c) (ledger_view w') = true.
Proof.
  destruct c as [t|t|t]; simpl; intros H.
  - destruct (world_register_frame fuel t w w' H) as [G [R _]]; auto.
  - destruct (deferred_register_frame callback fuel t w w' H) as [[G _] R]; auto.
  - destruct (deferred_register_frame callback fuel t w w' H) as [[G _] R]; auto.
Qed.

End WorldFrame.


(* ------------------------------------------------------------------ *)
(** ** The drain, the reserved schedule and the plugin *)

(** A drain right after a drain finds the queue empty and changes
    nothing; without the [ConsumableEvents<AddSystems>] resource the
    drain panics. *)
Theorem drain_idempotent (w w1 : World) :
  (events w = None -> add_requested_systems w = Panicked w) /\
  (add_requested_systems w = Done w1 -> add_requested_systems w1 = Done w1).
Proof.
  split; [intros H; unfold add_requested_systems; rewrite H; reflexivity|].
  unfold add_requested_systems; destruct (events w) as [q|]; [|discriminate].
  intros H; inversion H; subst; reflexivity.
Qed.

(** No queued event targets [AddingSystems]. *)
Definition NoReserved (w : World) : Prop :=
  match events w with
  | Some q => Forall (fun e => ev_schedule e <> AddingSystems) q
  | None => True
  end.

Lemma targets_reserved_false (q : list AddSystemsEv) :
  Forall (fun e => ev_schedule e <> AddingSystems) q -> targets AddingSystems q = false.
Proof.
  unfold targets; induction 1 as [|e q He _ IH]; simpl; [reflexivity|].
  rewrite IH, orb_false_r; apply label_eqb_neq; congruence.
Qed.

(** Since an [AddSystems] event can only be built by [AddSystems::new],
    registrations, [add_systems] and the drain keep the queue free of
    events for [AddingSystems], and the drain never changes the systems of
    the [AddingSystems] schedule. *)
Theorem reserved_schedule_never_fed (callback : rty -> list action) (fuel : nat) :
  NoReserved (plugin_build empty_world) /\
  (forall c w w', NoReserved w -> run_call callback fuel c w = Done w' -> NoReserved w') /\
  (forall l s w w', NoReserved w -> world_add_systems l s w = Done w' -> NoReserved w') /\
  (forall w w', NoReserved w -> add_requested_systems w = Done w' ->
     NoReserved w' /\
     schedules_get AddingSystems (schedules w') = schedules_get AddingSystems (schedules w)).
Proof.
  assert (Hg : forall w w', Grows w w' -> NoReserved w -> NoReserved w').
  { intros w w' [_ [_ [_ [new [F E]]]]] HN; unfold NoReserved in *; rewrite E.
    destruct (events w); [apply Forall_app; auto|exact I]. }
  split; [simpl; apply Forall_nil|split; [|split]].
  - intros c w w' HN H; apply (Hg w); [apply (run_call_grows callback fuel c w w' H)|exact HN].
  - intros l s w w' HN H; apply (Hg w); [apply (deferred_add_systems_frame l s w w' H)|exact HN].
  - intros w w' HN H; unfold NoReserved in HN.
    destruct (events w) as [q|] eqn:Eq; [|unfold add_requested_systems in H; rewrite Eq in H; discriminate].
    destruct (add_requested_systems_spec w q Eq) as [w1 [E1 [He Hs]]].
    rewrite H in E1; inversion E1; subst w1.
    split; [unfold NoReserved; rewrite He; apply Forall_nil|].
    rewrite Hs, targets_reserved_false; [reflexivity|exact HN].
Qed.

(** [RegisterInWorldPlugin::build] initialises the ledger only when it is
    missing ([init_resource]): registrations made through the [App] before
    the plugin was added are kept, and the registration invariant holds
    after it. *)
Theorem plugin_keeps_registrations (w : World) :
  (forall r, ledger w = Some r -> ledger (plugin_build w) = Some r) /\
  (ledger w = None -> ledger (plugin_build w) = Some RegisteredTypes_default) /\
  ledger_view (plugin_build w) = ledger_view w /\
  (Inv w -> Inv (plugin_build w)).
Proof.
  assert (HL : forall r, ledger w = Some r -> ledger (plugin_build w) = Some r).
  { intros r Hr; unfold plugin_build; rewrite Hr; destruct (events w); simpl; exact Hr. }
  assert (HN : ledger w = None -> ledger (plugin_build w) = Some RegisteredTypes_default).
  { intros Hr; unfold plugin_build; rewrite Hr; simpl; destruct (events w); reflexivity. }
  assert (HV : ledger_view (plugin_build w) = ledger_view w).
  { unfold ledger_view; destruct (ledger w) as [r|] eqn:E;
      [rewrite (HL r eq_refl)|rewrite (HN eq_refl)]; reflexivity. }
  split; [exact HL|split; [exact HN|split; [exact HV|]]].
  intros HI; apply (Inv_same w); [exact HI|exact HV|].
  unfold plugin_build; destruct (ledger w); simpl; destruct (events w); reflexivity.
Qed.

(** [MainScheduleOrder::insert_after(after, schedule)] panics when [after]
    is not in the order; otherwise it puts [schedule] right after the first
    [after] and keeps every other label in place.  The plugin calls it with
    [Last] and [AddingSystems]. *)
Theorem insert_after_places_right_after (after schedule : label) (labels : list label) :
  (~ In after labels -> insert_after after schedule labels = None) /\
  (In after labels ->
   exists pre post, labels = pre ++ after :: post /\ ~ In after pre /\
     insert_after after schedule labels = Some (pre ++ after :: schedule :: post)).
Proof.
  unfold insert_after.
  assert (P : forall ls, (position after ls = None <-> ~ In after ls) /\
     forall i, position after ls = Some i ->
       exists pre post, ls = pre ++ after :: post /\ ~ In after pre /\ List.length pre = i).
  { induction ls as [|l r [IHn IHs]]; simpl.
    - split; [split; [intros _ []|reflexivity]|discriminate].
    - destruct (label_eqb l after) eqn:E.
      + apply label_eqb_true in E; subst l; split.
        * split; [discriminate|intros H; exfalso; apply H; left; reflexivity].
        * intros i Hi; inversion Hi; subst; exists [], r; simpl; auto.
      + assert (Hne : l <> after) by (intros ->; rewrite (proj2 (label_eqb_true _ _) eq_refl) in E; discriminate).
        split.
        * destruct (position after r) eqn:Ep; simpl.
          -- split; [discriminate|intros H; exfalso; apply H; right].
             destruct (IHs n eq_refl) as [pre [post [-> _]]]; apply in_app_iff; right; left; reflexivity.
          -- split; [intros _ [H|H]; [contradiction|apply (proj1 IHn eq_refl); exact H]|reflexivity].
        * intros i Hi; destruct (position after r) as [j|] eqn:Ep; [|discriminate].
          simpl in Hi; inversion Hi; subst i.
          destruct (IHs j eq_refl) as [pre [post [-> [Hn Hlen]]]].
          exists (l :: pre), post; split; [reflexivity|split; [|simpl; congruence]].
          intros [H|H]; [contradiction|exact (Hn H)]. }
  destruct (P labels) as [Pn Ps]; split.
  - intros H; apply Pn in H; rewrite H; reflexivity.
  - intros Hin; destruct (position after labels) as [i|] eqn:E.
    + destruct (Ps i eq_refl) as [pre [post [-> [Hn Hlen]]]].
      exists pre, post; split; [reflexivity|split; [exact Hn|]].
      subst i.
      assert (FS : forall (a : label) (p q : list label),
        firstn (S (List.length p)) (p ++ a :: q) = p ++ [a] /\
        skipn (S (List.length p)) (p ++ a :: q) = q).
      { intros a p q; induction p as [|x p IHp]; [simpl; auto|].
        destruct IHp as [F S']; split.
        - change (x :: firstn (S (List.length p)) (p ++ a :: q) = x :: p ++ [a]).
          rewrite F; reflexivity.
        - change (skipn (S (List.length p)) (p ++ a :: q) = q); exact S'. }
      destruct (FS after pre post) as [F S']; rewrite F, S', <- app_assoc; reflexivity.
    + exfalso; apply (proj1 Pn eq_refl); exact Hin.
Qed.
